(** * The site configuration module of apps/www

    The repository's only program is [apps/www/astro.config.mjs], an ES
    module of three import declarations and one default export.  This file
    gives the fragment of JavaScript the module is written in an executable
    semantics (values, completions, a state-and-exception monad, module
    linking and evaluation), embeds the module as a term of that fragment,
    and proves what the repository's specification says about it.

    The three imported functions live in third-party packages; they are
    taken as parameters (class [Packages]).  Theorems about [host] are
    about evaluation with the packages installed and already loaded;
    [loading_host] also runs the packages' own module code when the
    configuration imports them. *)

From stdpp Require Import gmap strings list.
From Stdlib Require Import QArith Qminmax Lqa.
Close Scope Q_scope.

Set Default Proof Using "Type".
Set Warnings "-register-all".
Open Scope string_scope.

(** ** Values *)

(** Runtime values of the fragment.  An object keeps its own properties in
    creation order, as [Object.keys] reports them.  A function value is a
    reference to a function exported by a package. *)
Inductive value : Type :=
| VUndefined
| VNull
| VBool (b : bool)
| VStr (s : string)
| VArr (items : list value)
| VObj (props : list (string * value))
| VNative (pkg export : string).

(** Own-property lookup, [o[k]] on an object's property list. *)
Fixpoint assoc {A : Type} (k : string) (l : list (string * A)) : option A :=
  match l with
  | [] => None
  | (k', a) :: l' => if String.eqb k k' then Some a else assoc k l'
  end.

(** [CreateDataProperty]: a repeated key keeps its first position and takes
    the last value. *)
Fixpoint define_property (k : string) (v : value) (ps : list (string * value))
  : list (string * value) :=
  match ps with
  | [] => [(k, v)]
  | (k', v') :: ps' =>
      if String.eqb k k' then (k', v) :: ps'
      else (k', v') :: define_property k v ps'
  end.

Definition define_properties (ps : list (string * value)) : list (string * value) :=
  fold_left (fun acc kv => define_property kv.1 kv.2 acc) ps [].

(** [Object.keys]. *)
Definition own_keys (v : value) : list string :=
  match v with
  | VObj ps => map fst ps
  | _ => []
  end.




(** ** The world outside the module *)

(** What a module can observe or change besides its own bindings: the global
    object (where [process.env] lives) and the files of the project, those
    below the module's directory keyed by their path relative to it. *)
Record World : Type := mkWorld {
  globals : gmap string value;
  files : gmap string string
}.

Definition set_global (x : string) (v : value) (w : World) : World :=
  {| globals := <[x := v]> (globals w); files := files w |}.

Definition write_file (path content : string) (w : World) : World :=
  {| globals := globals w; files := <[path := content]> (files w) |}.

(** ** Completions and the evaluation monad *)

Inductive error : Type :=
| SyntaxError (what : string)
| ReferenceError (x : string)
| TypeError (what : string)
| ModuleNotFound (spec : string)
| Thrown (v : value).

Inductive completion (A : Type) : Type :=
| Normal (a : A)
| Abrupt (e : error).
Arguments Normal {A} a.
Arguments Abrupt {A} e.

(** A function of a package: it receives the argument list and the world,
    returns or throws, and leaves a world behind. *)
Definition native_fn : Type := list value -> World -> completion value * World.

(** What evaluation leaves in its trail: calls into packages, in order, and
    the points where evaluation was suspended and other jobs could run. *)
Inductive event : Type :=
| Call (pkg export : string) (args : list value)
| Yield.

Record State : Type := mkState {
  world : World;
  trace : list event
}.

Definition Eval (A : Type) : Type := State -> completion A * State.

Definition ret {A : Type} (a : A) : Eval A := fun s => (Normal a, s).

Definition throw {A : Type} (e : error) : Eval A := fun s => (Abrupt e, s).

Definition bind {A B : Type} (c : Eval A) (k : A -> Eval B) : Eval B :=
  fun s =>
    match c s with
    | (Normal a, s') => k a s'
    | (Abrupt e, s') => (Abrupt e, s')
    end.

Notation "x <- c ;; k" := (bind c (fun x => k))
  (at level 100, c at next level, right associativity).
Notation "c ;;; k" := (bind c (fun _ => k))
  (at level 100, right associativity).

Definition get_world : Eval World := fun s => (Normal (world s), s).

Definition log (ev : event) : Eval unit :=
  fun s => (Normal tt, {| world := world s; trace := trace s ++ [ev] |}).

Definition modify_world (f : World -> World) : Eval unit :=
  fun s => (Normal tt, {| world := f (world s); trace := trace s |}).

(** Run a package function against the current world. *)
Definition run_native (f : native_fn) (args : list value) : Eval value :=
  fun s =>
    let (r, w') := f args (world s) in
    (r, {| world := w'; trace := trace s |}).

(** ** The host *)

(** The host supplies module resolution for bare specifiers, what
    evaluating a package's own module code does to the world when the
    package is imported, the behaviour of the functions the resolved
    packages export, and the job queue: what runs while a module is
    suspended at an [await].  A specifier the host cannot resolve ends the
    import with the host's module-not-found error. *)
Record Host : Type := mkHost {
  resolve : string -> option (list (string * value));
  instantiate : string -> World -> completion unit * World;
  native : string -> string -> option native_fn;
  interleave : World -> World
}.

(** ** Expressions *)

Inductive expr : Type :=
| EStr (s : string)
| EBool (b : bool)
| ENull
| EIdent (x : string)
| EMember (e : expr) (name : string)
| EArr (items : list expr)
| EObj (props : list (string * expr))
| ECall (callee : expr) (args : list expr)
| EAwait (e : expr).

(** A module-scope binding; imports and [const] are immutable. *)
Record binding : Type := mkBinding {
  mutable : bool;
  bound : value
}.

(** Evaluate the elements of a list left to right; the first abrupt
    completion ends it. *)
Definition eval_list {A B : Type} (ev : A -> Eval B) : list A -> Eval (list B) :=
  fix go (l : list A) : Eval (list B) :=
    match l with
    | [] => ret []
    | a :: l' =>
        b <- ev a ;;
        bs <- go l' ;;
        ret (b :: bs)
    end.

Section Evaluation.
Variable h : Host.
(** Names the module declares (for the temporal dead zone). *)
Variable declared : list string.

(** Identifier resolution: module scope, then the global object. *)
Definition lookup_ident (scope : gmap string binding) (x : string) : Eval value :=
  match scope !! x with
  | Some b => ret (bound b)
  | None =>
      if bool_decide (x ∈ declared) then throw (ReferenceError x)
      else
        w <- get_world ;;
        match globals w !! x with
        | Some v => ret v
        | None => throw (ReferenceError x)
        end
  end.

(** [v.name], among the own properties of an object; prototype chains are
    outside the fragment. *)
Definition get_property (v : value) (name : string) : Eval value :=
  match v with
  | VUndefined | VNull => throw (TypeError "cannot read properties of undefined or null")
  | VObj ps => ret (default VUndefined (assoc name ps))
  | _ => ret VUndefined
  end.

(** [f(args)] *)
Definition call (f : value) (args : list value) : Eval value :=
  match f with
  | VNative pkg export =>
      match native h pkg export with
      | Some fn => log (Call pkg export args) ;;; run_native fn args
      | None => throw (TypeError "not a function")
      end
  | _ => throw (TypeError "not a function")
  end.

(** [await v] on a value that is not a thenable: the continuation is queued
    as a job, the jobs ahead of it run, and [v] comes back. *)
Definition suspend : Eval unit :=
  log Yield ;;; modify_world (interleave h).

Fixpoint eval_expr (scope : gmap string binding) (e : expr) : Eval value :=
  match e with
  | EStr s => ret (VStr s)
  | EBool b => ret (VBool b)
  | ENull => ret VNull
  | EIdent x => lookup_ident scope x
  | EMember e' name => v <- eval_expr scope e' ;; get_property v name
  | EArr items =>
      vs <- eval_list (eval_expr scope) items ;;
      ret (VArr vs)
  | EObj props =>
      ps <- eval_list (fun kv => v <- eval_expr scope kv.2 ;; ret (kv.1, v)) props ;;
      ret (VObj (define_properties ps))
  | ECall callee args =>
      f <- eval_expr scope callee ;;
      vs <- eval_list (eval_expr scope) args ;;
      call f vs
  | EAwait e' =>
      v <- eval_expr scope e' ;;
      suspend ;;;
      ret v
  end.

End Evaluation.

(** ** Modules *)

Inductive import_clause : Type :=
| ImportDefault (local : string)
| ImportNamed (imported local : string).

Inductive stmt : Type :=
| SImport (clauses : list import_clause) (from : string)
| SConst (x : string) (e : expr)
| SLet (x : string) (e : expr)
| SAssign (x : string) (e : expr)
| SSetGlobal (x : string) (e : expr)
| SExpr (e : expr)
| SExportConst (x : string) (e : expr)
| SExportDefault (e : expr).

Definition module : Type := list stmt.

(** *** Static semantics *)

Definition clause_local (c : import_clause) : string :=
  match c with
  | ImportDefault local => local
  | ImportNamed _ local => local
  end.

Definition clause_imported (c : import_clause) : string :=
  match c with
  | ImportDefault _ => "default"
  | ImportNamed imported _ => imported
  end.

(** The lexically declared names of a statement. *)
Definition stmt_declares (s : stmt) : list string :=
  match s with
  | SImport clauses _ => map clause_local clauses
  | SConst x _ | SLet x _ | SExportConst x _ => [x]
  | _ => []
  end.

Definition declared_names (m : module) : list string :=
  concat (map stmt_declares m).

(** The names a statement exports. *)
Definition stmt_exports (s : stmt) : list string :=
  match s with
  | SExportConst x _ => [x]
  | SExportDefault _ => ["default"]
  | _ => []
  end.

Definition exported_names (m : module) : list string :=
  concat (map stmt_exports m).

(** The [let] bindings of a module: its mutable variables. *)
Definition stmt_declares_mutable (s : stmt) : list string :=
  match s with
  | SLet x _ => [x]
  | _ => []
  end.

Definition mutable_names (m : module) : list string :=
  concat (map stmt_declares_mutable m).

(** The targets of a module's assignments, module variables and properties of
    the global object alike. *)
Definition stmt_writes (s : stmt) : list string :=
  match s with
  | SAssign x _ | SSetGlobal x _ => [x]
  | _ => []
  end.

Definition written_names (m : module) : list string :=
  concat (map stmt_writes m).

(** The module specifiers a module requests. *)
Definition stmt_requests (s : stmt) : list string :=
  match s with
  | SImport _ from => [from]
  | _ => []
  end.

Definition requested_modules (m : module) : list string :=
  concat (map stmt_requests m).



(** Whether an expression contains an [await]. *)
Fixpoint expr_awaits (e : expr) : bool :=
  match e with
  | EStr _ | EBool _ | ENull | EIdent _ => false
  | EMember e' _ => expr_awaits e'
  | EArr items => existsb expr_awaits items
  | EObj props => existsb (fun kv => expr_awaits kv.2) props
  | ECall callee args => expr_awaits callee || existsb expr_awaits args
  | EAwait _ => true
  end.

Definition stmt_expr (s : stmt) : option expr :=
  match s with
  | SImport _ _ => None
  | SConst _ e | SLet _ e | SAssign _ e | SSetGlobal _ e
  | SExpr e | SExportConst _ e | SExportDefault e => Some e
  end.

Definition stmt_awaits (s : stmt) : bool :=
  from_option expr_awaits false (stmt_expr s).

Definition module_awaits (m : module) : bool := existsb stmt_awaits m.

(** Whether every identifier of an expression is among [declared]: such an
    expression never reaches for the global object. *)
Fixpoint expr_closed (declared : list string) (e : expr) : bool :=
  match e with
  | EStr _ | EBool _ | ENull => true
  | EIdent x => bool_decide (x ∈ declared)
  | EMember e' _ => expr_closed declared e'
  | EArr items => forallb (expr_closed declared) items
  | EObj props => forallb (fun kv => expr_closed declared kv.2) props
  | ECall callee args => expr_closed declared callee && forallb (expr_closed declared) args
  | EAwait e' => expr_closed declared e'
  end.

Definition stmt_closed (declared : list string) (s : stmt) : bool :=
  from_option (expr_closed declared) true (stmt_expr s).

Definition module_closed (m : module) : bool :=
  forallb (stmt_closed (declared_names m)) m.

(** Early errors: a name declared twice, or exported twice. *)
Definition early_error (m : module) : option error :=
  if bool_decide (NoDup (declared_names m)) then
    if bool_decide (NoDup (exported_names m)) then None
    else Some (SyntaxError "duplicate export")
  else Some (SyntaxError "identifier has already been declared").

(** *** Linking *)

(** A specifier that starts with "./", "../" or "/" names a file: below the
    module's directory, and keyed by what follows "./", in the first case,
    keyed as written in the other two.  Any other specifier is a bare one,
    resolved by the host. *)
Definition path_of_specifier (spec : string) : option string :=
  if String.prefix "./" spec
  then Some (String.substring 2 (String.length spec - 2) spec)
  else if String.prefix "../" spec || String.prefix "/" spec
  then Some spec
  else None.

(** The export table a specifier resolves to.  A file module is a function of
    the file's content; it is kept as the content itself, under [default]. *)
Definition load (h : Host) (w : World) (spec : string) : option (list (string * value)) :=
  match path_of_specifier spec with
  | Some p => (fun content => [("default", VStr content)]) <$> files w !! p
  | None => resolve h spec
  end.

Definition link_clause (table : list (string * value)) (scope : gmap string binding)
    (c : import_clause) : Eval (gmap string binding) :=
  match assoc (clause_imported c) table with
  | Some v => ret (<[clause_local c := {| mutable := false; bound := v |}]> scope)
  | None => throw (SyntaxError "the requested module does not provide the export")
  end.

Fixpoint link_clauses (table : list (string * value)) (scope : gmap string binding)
    (cs : list import_clause) : Eval (gmap string binding) :=
  match cs with
  | [] => ret scope
  | c :: cs' =>
      scope' <- link_clause table scope c ;;
      link_clauses table scope' cs'
  end.

Fixpoint link (h : Host) (scope : gmap string binding) (m : module)
  : Eval (gmap string binding) :=
  match m with
  | [] => ret scope
  | SImport clauses from :: m' =>
      w <- get_world ;;
      match load h w from with
      | Some table =>
          scope' <- link_clauses table scope clauses ;;
          link h scope' m'
      | None => throw (ModuleNotFound from)
      end
  | _ :: m' => link h scope m'
  end.

(** *** Instantiation of the imported packages *)

(** The requested specifiers, each once, in the order of their first
    request. *)
Fixpoint distinct (seen : list string) (specs : list string) : list string :=
  match specs with
  | [] => []
  | spec :: specs' =>
      if bool_decide (spec ∈ seen) then distinct seen specs'
      else spec :: distinct (spec :: seen) specs'
  end.

(** Importing a package runs the package's module code; a file module has
    none. *)
Definition load_effect (h : Host) (spec : string) : Eval unit :=
  match path_of_specifier spec with
  | Some _ => ret tt
  | None =>
      fun s =>
        let (r, w') := instantiate h spec (world s) in
        (r, {| world := w'; trace := trace s |})
  end.

(** The imported modules are evaluated before the importing module's body,
    in the order of the import declarations. *)
Fixpoint instantiate_all (h : Host) (specs : list string) : Eval unit :=
  match specs with
  | [] => ret tt
  | spec :: specs' => load_effect h spec ;;; instantiate_all h specs'
  end.

(** *** Evaluation *)

(** The module environment: its scope and the bindings it exports. *)
Record ModuleEnv : Type := mkModuleEnv {
  scope : gmap string binding;
  exported : list (string * value)
}.

Definition declare (x : string) (is_mutable : bool) (v : value) (env : ModuleEnv)
  : ModuleEnv :=
  {| scope := <[x := {| mutable := is_mutable; bound := v |}]> (scope env);
     exported := exported env |}.

Definition export (x : string) (v : value) (env : ModuleEnv) : ModuleEnv :=
  {| scope := scope env; exported := exported env ++ [(x, v)] |}.

(** [x = v] in strict mode. *)
Definition assign (declared : list string) (x : string) (v : value) (env : ModuleEnv)
  : Eval ModuleEnv :=
  match scope env !! x with
  | Some b =>
      if mutable b then ret (declare x true v env)
      else throw (TypeError "assignment to constant variable")
  | None =>
      if bool_decide (x ∈ declared) then throw (ReferenceError x)
      else
        w <- get_world ;;
        match globals w !! x with
        | Some _ => modify_world (set_global x v) ;;; ret env
        | None => throw (ReferenceError x)
        end
  end.

Definition exec_stmt (h : Host) (declared : list string) (env : ModuleEnv) (s : stmt)
  : Eval ModuleEnv :=
  match s with
  | SImport _ _ => ret env
  | SConst x e => v <- eval_expr h declared (scope env) e ;; ret (declare x false v env)
  | SLet x e => v <- eval_expr h declared (scope env) e ;; ret (declare x true v env)
  | SAssign x e => v <- eval_expr h declared (scope env) e ;; assign declared x v env
  | SSetGlobal x e =>
      v <- eval_expr h declared (scope env) e ;;
      modify_world (set_global x v) ;;;
      ret env
  | SExpr e => _ <- eval_expr h declared (scope env) e ;; ret env
  | SExportConst x e =>
      v <- eval_expr h declared (scope env) e ;;
      ret (export x v (declare x false v env))
  | SExportDefault e =>
      v <- eval_expr h declared (scope env) e ;;
      ret (export "default" v env)
  end.

Fixpoint exec_stmts (h : Host) (declared : list string) (env : ModuleEnv) (m : module)
  : Eval ModuleEnv :=
  match m with
  | [] => ret env
  | s :: m' =>
      env' <- exec_stmt h declared env s ;;
      exec_stmts h declared env' m'
  end.

Definition eval_module (h : Host) (m : module) : Eval ModuleEnv :=
  match early_error m with
  | Some e => throw e
  | None =>
      imports <- link h ∅ m ;;
      instantiate_all h (distinct [] (requested_modules m)) ;;;
      exec_stmts h (declared_names m) {| scope := imports; exported := [] |} m
  end.

(** One evaluation of a module, started in world [w] with an empty trail. *)
Definition run (h : Host) (m : module) (w : World) : completion ModuleEnv * State :=
  eval_module h m {| world := w; trace := [] |}.

Definition outcome (r : completion ModuleEnv * State) : completion ModuleEnv := r.1.

Definition final_world (r : completion ModuleEnv * State) : World := world r.2.

Definition events (r : completion ModuleEnv * State) : list event := trace r.2.

(** The module namespace's [default], when evaluation completed. *)
Definition default_export (r : completion ModuleEnv * State) : option value :=
  match r.1 with
  | Normal env => assoc "default" (exported env)
  | Abrupt _ => None
  end.

(** [v.k] on a value already at hand; [undefined] when [v] has no own
    property [k]. *)
Definition field (k : string) (v : value) : value :=
  match v with
  | VObj ps => default VUndefined (assoc k ps)
  | _ => VUndefined
  end.

(** ** The packages the configuration imports *)

Class Packages : Type := mkPackages {
  cloudflare : native_fn;
  sitemap : native_fn;
  defineConfig : native_fn
}.

Definition astrojs_cloudflare : string := "@astrojs/cloudflare".
Definition astrojs_sitemap : string := "@astrojs/sitemap".
Definition astro_config_pkg : string := "astro/config".

(** Resolution of the bare specifiers, with the exports the module asks
    for. *)
Definition registry (spec : string) : option (list (string * value)) :=
  if String.eqb spec astrojs_cloudflare then Some [("default", VNative astrojs_cloudflare "default")]
  else if String.eqb spec astrojs_sitemap then Some [("default", VNative astrojs_sitemap "default")]
  else if String.eqb spec astro_config_pkg then Some [("defineConfig", VNative astro_config_pkg "defineConfig")]
  else None.

Definition natives `{Packages} (pkg export : string) : option native_fn :=
  if String.eqb pkg astrojs_cloudflare && String.eqb export "default" then Some cloudflare
  else if String.eqb pkg astrojs_sitemap && String.eqb export "default" then Some sitemap
  else if String.eqb pkg astro_config_pkg && String.eqb export "defineConfig" then Some defineConfig
  else None.

(** Packages already in the module cache: importing them again runs
    nothing. *)
Definition preloaded (spec : string) (w : World) : completion unit * World :=
  (Normal tt, w).

(** The host with the three packages installed and already loaded. *)
Definition host `{Packages} (jobs : World -> World) : Host :=
  {| resolve := registry; instantiate := preloaded; native := natives; interleave := jobs |}.


(** ** apps/www/astro.config.mjs *)

Definition site_url : string := "https://tedxuniversitasbrawijaya.com".

(** The object literal handed to [defineConfig]. *)
Definition config_literal : expr :=
  EObj [ ("site", EStr site_url);
         ("adapter", ECall (EIdent "cloudflare") []);
         ("integrations", EArr [ECall (EIdent "sitemap") []]) ].

Definition astro_config : module :=
  [ SImport [ImportDefault "cloudflare"] "@astrojs/cloudflare";
    SImport [ImportDefault "sitemap"] "@astrojs/sitemap";
    SImport [ImportNamed "defineConfig" "defineConfig"] "astro/config";
    SExportDefault (ECall (EIdent "defineConfig") [config_literal]) ].

(** The documentation file of the same application. *)
Definition visual_css_md : string := "docs/visual-css.md".

(** ** Observations on a run *)

(** The argument lists of the calls made to one function, in order. *)
Fixpoint calls_to (pkg export : string) (tr : list event) : list (list value) :=
  match tr with
  | [] => []
  | Call pkg' export' args :: tr' =>
      if String.eqb pkg pkg' && String.eqb export export'
      then args :: calls_to pkg export tr'
      else calls_to pkg export tr'
  | Yield :: tr' => calls_to pkg export tr'
  end.

Definition is_yield (ev : event) : bool :=
  match ev with Yield => true | Call _ _ _ => false end.

(** How often evaluation was suspended. *)
Definition suspensions (tr : list event) : nat :=
  length (filter (fun ev => is_yield ev = true) tr).

(** The keys an object literal writes, in source order. *)
Definition literal_keys (e : expr) : list string :=
  match e with
  | EObj props => map fst props
  | _ => []
  end.

(** The module scope once the three imports are linked. *)
Definition imports : gmap string binding :=
  <["defineConfig" := {| mutable := false; bound := VNative astro_config_pkg "defineConfig" |}]>
  (<["sitemap" := {| mutable := false; bound := VNative astrojs_sitemap "default" |}]>
  (<["cloudflare" := {| mutable := false; bound := VNative astrojs_cloudflare "default" |}]> ∅)).

(** The value of the object literal, given what the two constructor calls
    returned. *)
Definition config_object (adapter plugin : value) : value :=
  VObj [ ("site", VStr site_url);
         ("adapter", adapter);
         ("integrations", VArr [plugin]) ].

Definition call_cloudflare : event := Call astrojs_cloudflare "default" [].
Definition call_sitemap : event := Call astrojs_sitemap "default" [].
Definition call_defineConfig (cfg : value) : event :=
  Call astro_config_pkg "defineConfig" [cfg].

(** A relation between the state before and the state after that a
    computation keeps, whatever state it starts from. *)
Definition respects {A : Type} (R : State -> State -> Prop) (c : Eval A) : Prop :=
  ∀ s, R s (c s).2.


(** No suspension was added to the trail. *)
Definition same_suspensions (s s' : State) : Prop :=
  suspensions (trace s') = suspensions (trace s).

(** Two hosts that differ at most in their job queue. *)
Definition same_packages (h1 h2 : Host) : Prop :=
  (∀ spec, resolve h1 spec = resolve h2 spec)
  ∧ (∀ pkg export, native h1 pkg export = native h2 pkg export)
  ∧ (∀ spec w, instantiate h1 spec w = instantiate h2 spec w).

(** Two states an observer of [W]-related worlds cannot tell apart. *)
Definition low_equiv (W : World -> World -> Prop) (s1 s2 : State) : Prop :=
  W (world s1) (world s2) ∧ trace s1 = trace s2.

(** Two computations that, started in states that cannot be told apart,
    complete alike and end in states that cannot be told apart. *)
Definition secure {A : Type} (W : World -> World -> Prop) (c1 c2 : Eval A) : Prop :=
  ∀ s1 s2, low_equiv W s1 s2 →
    (c1 s1).1 = (c2 s2).1 ∧ low_equiv W (c1 s1).2 (c2 s2).2.

(** A package function that maps related worlds to the same completion and
    to related worlds. *)
Definition native_respects (W : World -> World -> Prop) (f : native_fn) : Prop :=
  ∀ args w1 w2, W w1 w2 →
    (f args w1).1 = (f args w2).1 ∧ W (f args w1).2 (f args w2).2.

(** Any two worlds. *)
Definition any_world (w1 w2 : World) : Prop := True.

(** Two worlds that differ at most in the content of the file at [path]. *)
Definition agree_off (path : string) (w1 w2 : World) : Prop :=
  globals w1 = globals w2 ∧ delete path (files w1) = delete path (files w2).

(** ** What is assumed of the packages

    The packages are not part of the repository.  Each theorem names the
    assumptions it needs of their functions, and no more. *)

(** [f] hands back its first argument and touches nothing: what
    [defineConfig] of astro/config does. *)
Definition returns_argument (f : native_fn) : Prop :=
  ∀ args w, f args w = (Normal (nth 0 args VUndefined), w).

Definition never_throws (f : native_fn) : Prop :=
  ∀ args w, ∃ v w', f args w = (Normal v, w').

(** The completion of [f] does not depend on the world it runs in. *)
Definition world_blind (f : native_fn) : Prop :=
  ∀ args w1 w2, (f args w1).1 = (f args w2).1.

(** [f] neither reads nor writes the file at [path]: on worlds that differ at
    most in that file it completes alike and leaves worlds that differ at
    most in that file. *)
Definition ignores_file (path : string) (f : native_fn) : Prop :=
  native_respects (agree_off path) f.

(** ** Sample packages and worlds

    A stand-in for the three packages that computes: an integration is a
    descriptor carrying its name, and [defineConfig] hands back its
    argument. *)
Definition integration (name : string) : native_fn :=
  fun _ w => (Normal (VObj [("name", VStr name)]), w).

Definition identity_helper : native_fn :=
  fun args w => (Normal (nth 0 args VUndefined), w).

Definition sample_packages : Packages :=
  {| cloudflare := integration "@astrojs/cloudflare";
     sitemap := integration "@astrojs/sitemap";
     defineConfig := identity_helper |}.

(** Packages whose adapter constructor throws. *)
Definition throwing : native_fn :=
  fun _ w => (Abrupt (Thrown (VStr "unsupported platform")), w).

Definition failing_packages : Packages :=
  {| cloudflare := throwing;
     sitemap := integration "@astrojs/sitemap";
     defineConfig := identity_helper |}.

Definition empty_world : World := {| globals := ∅; files := ∅ |}.

(** A world with an environment variable and the documentation file. *)
Definition sample_world : World :=
  {| globals := {[ "process" := VObj [("env", VObj [("NODE_ENV", VStr "production")])] ]};
     files := {[ visual_css_md := "# Visual CSS Best Practices" ]} |}.

(** ** Modules that behave otherwise

    Four small modules of the same fragment, each doing one thing the
    configuration does not. *)

(** [export default process.env.NODE_ENV;] *)
Definition reads_environment : module :=
  [ SExportDefault (EMember (EMember (EIdent "process") "env") "NODE_ENV") ].

(** [import doc from "./docs/visual-css.md"; export default doc;] *)
Definition imports_documentation : module :=
  [ SImport [ImportDefault "doc"] "./docs/visual-css.md";
    SExportDefault (EIdent "doc") ].

(** [export default await process;] *)
Definition awaits_something : module :=
  [ SExportDefault (EAwait (EIdent "process")) ].

(** [globalThis.deployed = true; export default null;] *)
Definition writes_global : module :=
  [ SSetGlobal "deployed" (EBool true);
    SExportDefault ENull ].

(** ** More packages

    Packages whose sitemap constructor throws. *)
Definition plugin_failing_packages : Packages :=
  {| cloudflare := integration "@astrojs/cloudflare";
     sitemap := throwing;
     defineConfig := identity_helper |}.

(** Packages whose [defineConfig] validates and wraps what it is given. *)
Definition wrapping_helper : native_fn :=
  fun args w =>
    match nth 0 args VUndefined with
    | VObj ps => (Normal (VObj (ps ++ [("validated", VBool true)])),
                  set_global "configured" (VBool true) w)
    | _ => (Abrupt (Thrown (VStr "invalid configuration")), w)
    end.

Definition wrapping_packages : Packages :=
  {| cloudflare := integration "@astrojs/cloudflare";
     sitemap := integration "@astrojs/sitemap";
     defineConfig := wrapping_helper |}.

(** ** apps/www/docs/visual-css.md: the responsive image width

    The guide sizes images with one declaration,
    [.image { width: clamp(240px, 30vw, 520px); }].  Lengths are in CSS
    pixels, taken as exact rationals. *)

(** [n vw] is [n] hundredths of the viewport's width. *)
Definition vw (viewport : Q) : Q := (viewport / 100)%Q.

(** [clamp(MIN, VAL, MAX)] resolves to [max(MIN, min(VAL, MAX))]. *)
Definition css_clamp (lo val hi : Q) : Q := Qmax lo (Qmin val hi).

(** The used width of [.image] in a viewport of the given width. *)
Definition image_width (viewport : Q) : Q :=
  css_clamp 240 (30 * vw viewport) 520.

(** ** Packages that leave a mark *)


(** The calls a world has on record under [name], latest first. *)
Definition recorded (name : string) (w : World) : list value :=
  match globals w !! name with
  | Some (VArr calls) => calls
  | _ => []
  end.

(** A constructor that puts each of its calls on record in the world, with
    the arguments it was given. *)
Definition recording (name : string) : native_fn :=
  fun args w =>
    (Normal (VObj [("name", VStr name)]),
     set_global name (VArr (VArr args :: recorded name w)) w).

Definition recording_packages : Packages :=
  {| cloudflare := recording "@astrojs/cloudflare";
     sitemap := recording "@astrojs/sitemap";
     defineConfig := identity_helper |}.


(** * Properties of the evaluator *)

(** Induction on expressions, through the lists they nest. *)
Lemma expr_nested_ind (Q : expr -> Prop) :
  (∀ s, Q (EStr s)) →
  (∀ b, Q (EBool b)) →
  Q ENull →
  (∀ x, Q (EIdent x)) →
  (∀ e name, Q e → Q (EMember e name)) →
  (∀ items, Forall Q items → Q (EArr items)) →
  (∀ props, Forall (fun kv => Q kv.2) props → Q (EObj props)) →
  (∀ callee args, Q callee → Forall Q args → Q (ECall callee args)) →
  (∀ e, Q e → Q (EAwait e)) →
  ∀ e, Q e.
Proof.
  intros HStr HBool HNull HIdent HMember HArr HObj HCall HAwait.
  fix IH 1. intros [s|b| |x|e name|items|props|callee args|e].
  - apply HStr.
  - apply HBool.
  - apply HNull.
  - apply HIdent.
  - apply HMember, IH.
  - apply HArr. revert items. fix IHl 1.
    intros [|i items]; constructor; [apply IH | apply IHl].
  - apply HObj. revert props. fix IHl 1.
    intros [|[k i] props]; constructor; [apply IH | apply IHl].
  - apply HCall; [apply IH|]. revert args. fix IHl 1.
    intros [|a args]; constructor; [apply IH | apply IHl].
  - apply HAwait, IH.
Qed.

Lemma existsb_false_Forall {A : Type} (f : A -> bool) (l : list A) :
  existsb f l = false → Forall (fun a => f a = false) l.
Proof.
  induction l as [|a l IH]; simpl; [constructor|].
  intros [Ha Hl]%orb_false_iff. constructor; auto.
Qed.

Lemma distinct_subseteq (seen specs : list string) (spec : string) :
  spec ∈ distinct seen specs → spec ∈ specs.
Proof.
  revert seen. induction specs as [|x specs IH]; intros seen; simpl; [done|].
  case_bool_decide.
  - intros Hin. right. by apply (IH seen).
  - intros [->|Hin]%elem_of_cons; [by left|]. right. by apply (IH (x :: seen)).
Qed.

Section Respects.
Variable R : State -> State -> Prop.
Hypothesis R_refl : ∀ s, R s s.
Hypothesis R_trans : ∀ s1 s2 s3, R s1 s2 → R s2 s3 → R s1 s3.

Lemma respects_ret {A : Type} (a : A) : respects R (ret a).
Proof using R_refl. intros s. apply R_refl. Qed.

Lemma respects_throw {A : Type} (e : error) : respects R (@throw A e).
Proof using R_refl. intros s. apply R_refl. Qed.

Lemma respects_get_world : respects R get_world.
Proof using R_refl. intros s. apply R_refl. Qed.

Lemma respects_bind {A B : Type} (c : Eval A) (k : A -> Eval B) :
  respects R c → (∀ a, respects R (k a)) → respects R (bind c k).
Proof using R_trans.
  intros Hc Hk s. unfold bind. specialize (Hc s).
  destruct (c s) as [[a|e] s']; simpl in *; [|done].
  eapply R_trans; [exact Hc | apply Hk].
Qed.

Lemma respects_eval_list {A B : Type} (ev : A -> Eval B) (l : list A) :
  Forall (fun a => respects R (ev a)) l → respects R (eval_list ev l).
Proof using R_refl R_trans.
  induction 1 as [|a l Ha _ IH]; simpl.
  - apply respects_ret.
  - apply respects_bind; [done|]. intros b.
    apply respects_bind; [done|]. intros bs. apply respects_ret.
Qed.

Variable h : Host.
Variable declared : list string.
Hypothesis R_call : ∀ f args, respects R (call h f args).

Lemma respects_lookup_ident scope x : respects R (lookup_ident declared scope x).
Proof using R_refl R_trans.
  unfold lookup_ident. destruct (scope !! x); [apply respects_ret|].
  case_bool_decide; [apply respects_throw|].
  apply respects_bind; [apply respects_get_world|]. intros w.
  destruct (globals w !! x); [apply respects_ret | apply respects_throw].
Qed.

Lemma respects_get_property v name : respects R (get_property v name).
Proof using R_refl.
  destruct v; simpl; first [apply respects_ret | apply respects_throw].
Qed.

(** An expression keeps [R] when every call does and it either has no
    [await] or suspension keeps [R] too. *)
Lemma respects_eval_expr scope e :
  expr_awaits e = false ∨ respects R (suspend h) →
  respects R (eval_expr h declared scope e).
Proof using R_refl R_trans R_call.
  induction e as [s|b| |x|e name IH|items IH|props IH|callee args IHc IHa|e IH]
    using expr_nested_ind; simpl; intros Hq.
  - apply respects_ret.
  - apply respects_ret.
  - apply respects_ret.
  - apply respects_lookup_ident.
  - apply respects_bind; [by apply IH|]. intros v. apply respects_get_property.
  - apply respects_bind; [|intros vs; apply respects_ret].
    apply respects_eval_list.
    assert (Forall (fun i => expr_awaits i = false ∨ respects R (suspend h)) items) as Hi.
    { destruct Hq as [Hq|Hq].
      - apply existsb_false_Forall in Hq. eapply Forall_impl; [exact Hq|]. intros ? ?. by left.
      - apply Forall_forall. auto. }
    clear Hq. induction IH as [|i items Hi' _ IHl]; [constructor|].
    inversion Hi; subst. constructor; auto.
  - apply respects_bind; [|intros vs; apply respects_ret].
    apply respects_eval_list.
    assert (Forall (fun kv : string * expr =>
              expr_awaits kv.2 = false ∨ respects R (suspend h)) props) as Hi.
    { destruct Hq as [Hq|Hq].
      - apply existsb_false_Forall in Hq. eapply Forall_impl; [exact Hq|]. intros ? ?. by left.
      - apply Forall_forall. auto. }
    clear Hq. induction IH as [|kv props Hkv _ IHl]; [constructor|].
    inversion Hi; subst. constructor; [|auto].
    apply respects_bind; [auto|]. intros v. apply respects_ret.
  - assert (expr_awaits callee = false ∨ respects R (suspend h)) as Hc.
    { destruct Hq as [[Hq _]%orb_false_iff|Hq]; auto. }
    assert (Forall (fun i => expr_awaits i = false ∨ respects R (suspend h)) args) as Hi.
    { destruct Hq as [[_ Hq]%orb_false_iff|Hq].
      - apply existsb_false_Forall in Hq. eapply Forall_impl; [exact Hq|]. intros ? ?. by left.
      - apply Forall_forall. auto. }
    apply respects_bind; [auto|]. intros f.
    apply respects_bind; [|intros vs; apply R_call].
    apply respects_eval_list.
    clear Hq Hc. induction IHa as [|i args Hi' _ IHl]; [constructor|].
    inversion Hi; subst. constructor; auto.
  - destruct Hq as [Hq|Hq]; [done|].
    apply respects_bind; [auto|]. intros v.
    apply respects_bind; [done|]. intros _. apply respects_ret.
Qed.
End Respects.

Section RespectsModule.
Variable R : State -> State -> Prop.
Hypothesis R_refl : ∀ s, R s s.
Hypothesis R_trans : ∀ s1 s2 s3, R s1 s2 → R s2 s3 → R s1 s3.
Variable h : Host.
Hypothesis R_call : ∀ f args, respects R (call h f args).

Lemma respects_link_clauses table scope cs : respects R (link_clauses table scope cs).
Proof using R_refl R_trans.
  revert scope. induction cs as [|c cs IH]; intros scope; simpl.
  - by apply respects_ret.
  - apply respects_bind; [done| |done].
    unfold link_clause. destruct (assoc _ table).
    + by apply respects_ret.
    + by apply respects_throw.
Qed.

(** Linking reads the world and changes nothing. *)
Lemma respects_link scope m : respects R (link h scope m).
Proof using R_refl R_trans.
  revert scope. induction m as [|s m IH]; intros scope; simpl.
  - by apply respects_ret.
  - destruct s; try apply IH.
    apply respects_bind; [done|by apply respects_get_world|]. intros w.
    destruct (load h w from); [|by apply respects_throw].
    apply respects_bind; [done|apply respects_link_clauses|done].
Qed.

Lemma respects_assign declared x v env :
  (∀ f, respects R (modify_world f)) → respects R (assign declared x v env).
Proof using R_refl R_trans.
  intros Hm. unfold assign. destruct (scope env !! x) as [b|].
  - destruct (mutable b); [by apply respects_ret | by apply respects_throw].
  - case_bool_decide; [by apply respects_throw|].
    apply respects_bind; [done|by apply respects_get_world|]. intros w.
    destruct (globals w !! x); [|by apply respects_throw].
    apply respects_bind; [done|apply Hm|]. intros _. by apply respects_ret.
Qed.

(** A statement keeps [R] when calls do, it writes nothing or writes keep
    [R], and it has no [await] or suspension keeps [R]. *)
Lemma respects_exec_stmt declared env s :
  stmt_writes s = [] ∨ (∀ f, respects R (modify_world f)) →
  stmt_awaits s = false ∨ respects R (suspend h) →
  respects R (exec_stmt h declared env s).
Proof using R_refl R_trans R_call.
  intros Hw Hq.
  destruct s as [cs from|x e|x e|x e|x e|e|x e|e]; simpl in *;
    try (apply respects_bind;
         [done | by apply respects_eval_expr | intros v; by apply respects_ret]).
  - by apply respects_ret.
  - destruct Hw as [Hw|Hw]; [done|].
    apply respects_bind; [done | by apply respects_eval_expr |].
    intros v. by apply respects_assign.
  - destruct Hw as [Hw|Hw]; [done|].
    apply respects_bind; [done | by apply respects_eval_expr |]. intros v.
    apply respects_bind; [done | apply Hw |]. intros _. by apply respects_ret.
Qed.

Lemma respects_exec_stmts declared env m :
  written_names m = [] ∨ (∀ f, respects R (modify_world f)) →
  module_awaits m = false ∨ respects R (suspend h) →
  respects R (exec_stmts h declared env m).
Proof using R_refl R_trans R_call.
  revert env. induction m as [|s m IH]; intros env Hw Hq; simpl.
  - by apply respects_ret.
  - assert (stmt_writes s = [] ∨ (∀ f, respects R (modify_world f))) as Hs.
    { destruct Hw as [Hw|Hw]; [|by right].
      unfold written_names in Hw. simpl in Hw. apply app_eq_nil in Hw as [Hs _]. by left. }
    assert (written_names m = [] ∨ (∀ f, respects R (modify_world f))) as Hm.
    { destruct Hw as [Hw|Hw]; [|by right].
      unfold written_names in Hw. simpl in Hw. apply app_eq_nil in Hw as [_ Hm]. by left. }
    apply respects_bind; [done| |].
    + apply respects_exec_stmt; [done|].
      destruct Hq as [[Hq _]%orb_false_iff|Hq]; auto.
    + intros env'. apply IH; [done|].
      destruct Hq as [[_ Hq]%orb_false_iff|Hq]; auto.
Qed.

Lemma respects_instantiate_all specs :
  (∀ spec, spec ∈ specs → respects R (load_effect h spec)) →
  respects R (instantiate_all h specs).
Proof using R_refl R_trans.
  induction specs as [|spec specs IH]; intros Hl; simpl.
  - by apply respects_ret.
  - apply respects_bind; [done| |].
    + apply Hl. by left.
    + intros _. apply IH. intros spec' Hin. apply Hl. by right.
Qed.

Lemma respects_eval_module m :
  (∀ spec, spec ∈ requested_modules m → respects R (load_effect h spec)) →
  written_names m = [] ∨ (∀ f, respects R (modify_world f)) →
  module_awaits m = false ∨ respects R (suspend h) →
  respects R (eval_module h m).
Proof using R_refl R_trans R_call.
  intros Hl Hw Hq. unfold eval_module.
  destruct (early_error m); [by apply respects_throw|].
  apply respects_bind; [done|apply respects_link|]. intros scope.
  apply respects_bind; [done| |].
  - apply respects_instantiate_all. intros spec Hin.
    apply Hl. by apply (distinct_subseteq [] (requested_modules m)).
  - intros _. by apply respects_exec_stmts.
Qed.
End RespectsModule.

(** *** The world is framed *)

Section QuietFrame.
Variable Rw : World -> World -> Prop.
Hypothesis Rw_refl : ∀ w, Rw w w.
Hypothesis Rw_trans : ∀ w1 w2 w3, Rw w1 w2 → Rw w2 w3 → Rw w1 w3.
Variable h : Host.
Hypothesis Rw_native :
  ∀ pkg export fn, native h pkg export = Some fn → ∀ args w, Rw w (fn args w).2.



End QuietFrame.

(** *** Suspension needs an await *)

Lemma suspensions_app (tr1 tr2 : list event) :
  suspensions (tr1 ++ tr2) = suspensions tr1 + suspensions tr2.
Proof. unfold suspensions. by rewrite filter_app, length_app. Qed.

Lemma call_same_suspensions (h : Host) (f : value) (args : list value) :
  respects same_suspensions (call h f args).
Proof.
  intros s. unfold call.
  destruct f as [| | | | | |pkg export]; try done.
  destruct (native h pkg export) as [fn|]; [|done].
  unfold bind, log, run_native, same_suspensions. simpl.
  destruct (fn args (world s)) as [[v|e] w']; simpl;
    rewrite suspensions_app;
    change (suspensions [Call pkg export args]) with 0; lia.
Qed.

(** A module without [await] is evaluated in one go: its trail has no
    suspension. *)
Lemma await_free_never_suspends (h : Host) (m : module) (w : World) :
  module_awaits m = false →
  suspensions (events (run h m w)) = 0.
Proof.
  intros Hq.
  apply (respects_eval_module same_suspensions) with (s := {| world := w; trace := [] |}).
  - done.
  - unfold same_suspensions. congruence.
  - apply call_same_suspensions.
  - intros spec _ s. unfold load_effect, same_suspensions.
    destruct (path_of_specifier spec); [done|].
    by destruct (instantiate h spec (world s)) as [r w'].
  - by right.
  - by left.
Qed.

(** *** Noninterference *)

Lemma forallb_true_Forall {A : Type} (f : A -> bool) (l : list A) :
  forallb f l = true → Forall (fun a => f a = true) l.
Proof.
  induction l as [|a l IH]; simpl; [constructor|].
  intros [Ha Hl]%andb_true_iff. constructor; auto.
Qed.

Section Secure.
Variable W : World -> World -> Prop.

Lemma secure_ret {A : Type} (a : A) : secure W (ret a) (ret a).
Proof. by intros s1 s2 Hs. Qed.

Lemma secure_throw {A : Type} (e : error) : secure W (@throw A e) (throw e).
Proof. by intros s1 s2 Hs. Qed.

Lemma secure_bind {A B : Type} (c1 c2 : Eval A) (k1 k2 : A -> Eval B) :
  secure W c1 c2 → (∀ a, secure W (k1 a) (k2 a)) → secure W (bind c1 k1) (bind c2 k2).
Proof.
  intros Hc Hk s1 s2 Hs. unfold bind. destruct (Hc s1 s2 Hs) as [Hr Hs'].
  destruct (c1 s1) as [r1 s1'], (c2 s2) as [r2 s2']. simpl in *. subst r2.
  destruct r1 as [a|e]; [by apply Hk | done].
Qed.

Lemma secure_eval_list {A B : Type} (ev1 ev2 : A -> Eval B) (l : list A) :
  Forall (fun a => secure W (ev1 a) (ev2 a)) l →
  secure W (eval_list ev1 l) (eval_list ev2 l).
Proof.
  induction 1 as [|a l Ha _ IH]; simpl; [apply secure_ret|].
  apply secure_bind; [done|]. intros b.
  apply secure_bind; [done|]. intros bs. apply secure_ret.
Qed.

Lemma secure_log (ev : event) : secure W (log ev) (log ev).
Proof. intros s1 s2 [Hw Ht]. unfold log, low_equiv. simpl. by rewrite Ht. Qed.

Lemma secure_get_property v name : secure W (get_property v name) (get_property v name).
Proof. destruct v; simpl; first [apply secure_ret | apply secure_throw]. Qed.

Variables h1 h2 : Host.
Variable declared : list string.
Hypothesis Hsame : same_packages h1 h2.
Hypothesis Hnative : ∀ pkg export fn, native h1 pkg export = Some fn → native_respects W fn.

Lemma secure_call f args : secure W (call h1 f args) (call h2 f args).
Proof using Hsame Hnative.
  unfold call. destruct f as [| | | | | |pkg export]; try apply secure_throw.
  destruct Hsame as (_ & Hn & _). rewrite <- Hn.
  destruct (native h1 pkg export) as [fn|] eqn:Hfn; [|apply secure_throw].
  apply secure_bind; [apply secure_log|]. intros _ s1 s2 [Hw Ht].
  unfold run_native, low_equiv.
  destruct (Hnative pkg export fn Hfn args (world s1) (world s2) Hw) as [Hr Hw'].
  destruct (fn args (world s1)) as [r1 w1'], (fn args (world s2)) as [r2 w2'].
  by simpl in *.
Qed.

Lemma secure_suspend :
  (∀ w1 w2, W w1 w2 → W (interleave h1 w1) (interleave h2 w2)) →
  secure W (suspend h1) (suspend h2).
Proof.
  intros Hj. unfold suspend. apply secure_bind; [apply secure_log|].
  intros _ s1 s2 [Hw Ht]. unfold modify_world, low_equiv. simpl. auto.
Qed.

Lemma secure_lookup_ident scope x :
  x ∈ declared ∨ (∀ w1 w2, W w1 w2 → globals w1 = globals w2) →
  secure W (lookup_ident declared scope x) (lookup_ident declared scope x).
Proof.
  intros Hx. unfold lookup_ident. destruct (scope !! x); [apply secure_ret|].
  case_bool_decide as Hd; [apply secure_throw|].
  destruct Hx as [Hx|Hg]; [done|].
  intros s1 s2 [Hw Ht]. unfold bind, get_world. simpl.
  rewrite (Hg _ _ Hw). by destruct (globals (world s2) !! x).
Qed.

(** Two evaluations of an expression cannot be told apart when it reads no
    global that differs, and either has no [await] or the job queues keep
    the worlds related. *)
Lemma secure_eval_expr scope e :
  expr_closed declared e = true ∨ (∀ w1 w2, W w1 w2 → globals w1 = globals w2) →
  expr_awaits e = false ∨ (∀ w1 w2, W w1 w2 → W (interleave h1 w1) (interleave h2 w2)) →
  secure W (eval_expr h1 declared scope e) (eval_expr h2 declared scope e).
Proof using Hsame Hnative.
  induction e as [s|b| |x|e name IH|items IH|props IH|callee args IHc IHa|e IH]
    using expr_nested_ind; simpl; intros Hcl Hq.
  - apply secure_ret.
  - apply secure_ret.
  - apply secure_ret.
  - apply secure_lookup_ident. destruct Hcl as [Hcl|Hcl]; [|by right].
    left. by apply bool_decide_eq_true in Hcl.
  - apply secure_bind; [by apply IH|]. intros v. apply secure_get_property.
  - apply secure_bind; [|intros vs; apply secure_ret].
    apply secure_eval_list, Forall_forall. intros i Hi.
    rewrite Forall_forall in IH. apply IH; [done| |].
    + destruct Hcl as [Hcl|Hcl]; [|by right].
      left. apply forallb_true_Forall in Hcl. rewrite Forall_forall in Hcl. auto.
    + destruct Hq as [Hq|Hq]; [|by right].
      left. apply existsb_false_Forall in Hq. rewrite Forall_forall in Hq. auto.
  - apply secure_bind; [|intros vs; apply secure_ret].
    apply secure_eval_list, Forall_forall. intros kv Hkv.
    rewrite Forall_forall in IH.
    apply secure_bind; [|intros v; apply secure_ret]. apply IH; [done| |].
    + destruct Hcl as [Hcl|Hcl]; [|by right].
      left. apply forallb_true_Forall in Hcl. rewrite Forall_forall in Hcl. auto.
    + destruct Hq as [Hq|Hq]; [|by right].
      left. apply existsb_false_Forall in Hq. rewrite Forall_forall in Hq. auto.
  - apply secure_bind.
    + apply IHc.
      * destruct Hcl as [[Hcl _]%andb_true_iff|Hcl]; auto.
      * destruct Hq as [[Hq _]%orb_false_iff|Hq]; auto.
    + intros f. apply secure_bind; [|intros vs; apply secure_call].
      apply secure_eval_list, Forall_forall. intros i Hi.
      rewrite Forall_forall in IHa. apply IHa; [done| |].
      * destruct Hcl as [[_ Hcl]%andb_true_iff|Hcl]; [|by right].
        left. apply forallb_true_Forall in Hcl. rewrite Forall_forall in Hcl. auto.
      * destruct Hq as [[_ Hq]%orb_false_iff|Hq]; [|by right].
        left. apply existsb_false_Forall in Hq. rewrite Forall_forall in Hq. auto.
  - destruct Hq as [Hq|Hq]; [done|].
    apply secure_bind; [by apply IH; [|right]|]. intros v.
    apply secure_bind; [by apply secure_suspend|]. intros _. apply secure_ret.
Qed.
End Secure.

Section SecureModule.
Variable W : World -> World -> Prop.
Variables h1 h2 : Host.
Hypothesis Hsame : same_packages h1 h2.
Hypothesis Hnative : ∀ pkg export fn, native h1 pkg export = Some fn → native_respects W fn.
Hypothesis Hload :
  ∀ spec w1 w2, W w1 w2 →
    (instantiate h1 spec w1).1 = (instantiate h1 spec w2).1
    ∧ W (instantiate h1 spec w1).2 (instantiate h1 spec w2).2.

Lemma secure_load_effect spec : secure W (load_effect h1 spec) (load_effect h2 spec).
Proof using Hsame Hload.
  intros s1 s2 [Hw Ht]. unfold load_effect, low_equiv.
  destruct (path_of_specifier spec); [done|].
  destruct Hsame as (_ & _ & Hi). rewrite <- Hi.
  destruct (Hload spec (world s1) (world s2) Hw) as [Hr Hw'].
  destruct (instantiate h1 spec (world s1)) as [r1 u1],
           (instantiate h1 spec (world s2)) as [r2 u2].
  by simpl in *.
Qed.

Lemma secure_instantiate_all specs :
  secure W (instantiate_all h1 specs) (instantiate_all h2 specs).
Proof using Hsame Hload.
  induction specs as [|spec specs IH]; simpl; [apply secure_ret|].
  apply secure_bind; [apply secure_load_effect | done].
Qed.

Lemma secure_link_clauses table scope cs :
  secure W (link_clauses table scope cs) (link_clauses table scope cs).
Proof.
  revert scope. induction cs as [|c cs IH]; intros scope; simpl; [apply secure_ret|].
  apply secure_bind; [|done]. unfold link_clause.
  destruct (assoc _ table); [apply secure_ret | apply secure_throw].
Qed.

Lemma link_import (h : Host) scope cs from m s :
  link h scope (SImport cs from :: m) s =
    match load h (world s) from with
    | Some table => bind (link_clauses table scope cs) (fun scope' => link h scope' m) s
    | None => (Abrupt (ModuleNotFound from), s)
    end.
Proof.
  simpl. unfold bind at 1, get_world. simpl.
  by destruct (load h (world s) from).
Qed.

(** Linking two related worlds gives the same scope when the files the
    module requests are the same in both. *)
Lemma secure_link scope m :
  (∀ spec p, spec ∈ requested_modules m → path_of_specifier spec = Some p →
     ∀ w1 w2, W w1 w2 → files w1 !! p = files w2 !! p) →
  secure W (link h1 scope m) (link h2 scope m).
Proof using Hsame.
  revert scope. induction m as [|st m IH]; intros scope Hf; [apply secure_ret|].
  assert (∀ spec p, spec ∈ requested_modules m → path_of_specifier spec = Some p →
            ∀ w1 w2, W w1 w2 → files w1 !! p = files w2 !! p) as Hf'.
  { intros spec p Hin. apply Hf. unfold requested_modules. simpl.
    apply elem_of_app. by right. }
  destruct st as [cs from|x e|x e|x e|x e|e|x e|e]; try by apply IH.
  intros s1 s2 [Hw Ht]. rewrite !link_import.
  assert (load h1 (world s1) from = load h2 (world s2) from) as ->.
  { unfold load. destruct (path_of_specifier from) as [p|] eqn:Hp.
    - rewrite (Hf from p) with (w2 := world s2); [done| |done|done].
      unfold requested_modules. simpl. apply elem_of_cons. by left.
    - by destruct Hsame as [-> _]. }
  destruct (load h2 (world s2) from) as [table|]; [|done].
  apply secure_bind; [apply secure_link_clauses| |done].
  intros scope'. by apply IH.
Qed.

Lemma secure_assign declared x v env :
  (∀ y u w1 w2, W w1 w2 → W (set_global y u w1) (set_global y u w2)) →
  (∀ w1 w2, W w1 w2 → globals w1 = globals w2) →
  secure W (assign declared x v env) (assign declared x v env).
Proof.
  intros Hset Hg. unfold assign. destruct (scope env !! x) as [b|].
  - destruct (mutable b); [apply secure_ret | apply secure_throw].
  - case_bool_decide; [apply secure_throw|].
    intros s1 s2 [Hw Ht].
    unfold bind, get_world, modify_world, ret, throw, low_equiv. simpl.
    rewrite (Hg _ _ Hw). destruct (globals (world s2) !! x); simpl; auto.
Qed.

Lemma secure_exec_stmt declared env st :
  stmt_closed declared st = true ∨ (∀ w1 w2, W w1 w2 → globals w1 = globals w2) →
  stmt_awaits st = false ∨ (∀ w1 w2, W w1 w2 → W (interleave h1 w1) (interleave h2 w2)) →
  stmt_writes st = []
  ∨ ((∀ y u w1 w2, W w1 w2 → W (set_global y u w1) (set_global y u w2))
     ∧ (∀ w1 w2, W w1 w2 → globals w1 = globals w2)) →
  secure W (exec_stmt h1 declared env st) (exec_stmt h2 declared env st).
Proof using Hsame Hnative.
  intros Hcl Hq Hw.
  destruct st as [cs from|x e|x e|x e|x e|e|x e|e]; simpl in *;
    try (apply secure_bind;
         [by apply secure_eval_expr | intros v; apply secure_ret]).
  - apply secure_ret.
  - destruct Hw as [Hw|[Hset Hg]]; [done|].
    apply secure_bind; [by apply secure_eval_expr|]. intros v.
    by apply secure_assign.
  - destruct Hw as [Hw|[Hset Hg]]; [done|].
    apply secure_bind; [by apply secure_eval_expr|]. intros v.
    apply secure_bind; [|intros _; apply secure_ret].
    intros s1 s2 [Hw Ht]. unfold modify_world, low_equiv. simpl. auto.
Qed.

Lemma secure_exec_stmts declared env m :
  forallb (stmt_closed declared) m = true
  ∨ (∀ w1 w2, W w1 w2 → globals w1 = globals w2) →
  module_awaits m = false
  ∨ (∀ w1 w2, W w1 w2 → W (interleave h1 w1) (interleave h2 w2)) →
  written_names m = []
  ∨ ((∀ y u w1 w2, W w1 w2 → W (set_global y u w1) (set_global y u w2))
     ∧ (∀ w1 w2, W w1 w2 → globals w1 = globals w2)) →
  secure W (exec_stmts h1 declared env m) (exec_stmts h2 declared env m).
Proof using Hsame Hnative.
  revert env. induction m as [|st m IH]; intros env Hcl Hq Hw; simpl; [apply secure_ret|].
  apply secure_bind.
  - apply secure_exec_stmt.
    + destruct Hcl as [[Hcl _]%andb_true_iff|Hcl]; auto.
    + destruct Hq as [[Hq _]%orb_false_iff|Hq]; auto.
    + destruct Hw as [Hw|Hw]; [|by right].
      unfold written_names in Hw. simpl in Hw. apply app_eq_nil in Hw as [Hs _]. by left.
  - intros env'. apply IH.
    + destruct Hcl as [[_ Hcl]%andb_true_iff|Hcl]; auto.
    + destruct Hq as [[_ Hq]%orb_false_iff|Hq]; auto.
    + destruct Hw as [Hw|Hw]; [|by right].
      unfold written_names in Hw. simpl in Hw. apply app_eq_nil in Hw as [_ Hm]. by left.
Qed.

(** Noninterference for modules.  Run in two [W]-related worlds, under two
    hosts with the same packages, a module completes alike, leaves the same
    trail and related worlds, provided: package functions, and the loading
    of packages, respect [W]; the module reads no global that may differ; it requests no file that may
    differ; it awaits nothing, or the job queues respect [W]; it assigns to
    nothing, or writes respect [W]. *)
Theorem module_noninterference (m : module) (w1 w2 : World) :
  module_closed m = true ∨ (∀ w1 w2, W w1 w2 → globals w1 = globals w2) →
  (∀ spec p, spec ∈ requested_modules m → path_of_specifier spec = Some p →
     ∀ w1 w2, W w1 w2 → files w1 !! p = files w2 !! p) →
  module_awaits m = false
  ∨ (∀ w1 w2, W w1 w2 → W (interleave h1 w1) (interleave h2 w2)) →
  written_names m = []
  ∨ ((∀ y u w1 w2, W w1 w2 → W (set_global y u w1) (set_global y u w2))
     ∧ (∀ w1 w2, W w1 w2 → globals w1 = globals w2)) →
  W w1 w2 →
  outcome (run h1 m w1) = outcome (run h2 m w2)
  ∧ events (run h1 m w1) = events (run h2 m w2)
  ∧ W (final_world (run h1 m w1)) (final_world (run h2 m w2)).
Proof using Hsame Hnative Hload.
  intros Hcl Hf Hq Hw HW.
  assert (secure W (eval_module h1 m) (eval_module h2 m)) as Hsec.
  { unfold eval_module. destruct (early_error m); [apply secure_throw|].
    apply secure_bind; [by apply secure_link|]. intros scope.
    apply secure_bind; [apply secure_instantiate_all|]. intros _.
    by apply secure_exec_stmts. }
  destruct (Hsec {| world := w1; trace := [] |} {| world := w2; trace := [] |})
    as (Hr & Hw' & Ht); [done|].
  by split_and!.
Qed.
End SecureModule.

(** *** Without an await the job queue is never consulted *)

Lemma await_free_ignores_jobs (h1 h2 : Host) (m : module) (w : World) :
  same_packages h1 h2 → module_awaits m = false → run h1 m w = run h2 m w.
Proof.
  intros Hsame Hq.
  destruct (module_noninterference eq h1 h2 Hsame) with (m := m) (w1 := w) (w2 := w)
    as (Hr & Ht & Hw).
  - by intros pkg export fn _ args w1 w2 ->.
  - by intros spec w1 w2 ->.
  - right. by intros w1 w2 ->.
  - by intros spec p _ _ w1 w2 ->.
  - by left.
  - right. split; by intros; subst.
  - done.
  - unfold outcome, events, final_world in *.
    destruct (run h1 m w) as [r1 [u1 t1]], (run h2 m w) as [r2 [u2 t2]].
    simpl in *. by subst.
Qed.

(** * The configuration module *)

(** ** The packages' functions, one by one *)

Lemma natives_inv {P : Packages} (pkg export : string) (fn : native_fn) :
  natives pkg export = Some fn →
  fn = cloudflare ∨ fn = sitemap ∨ fn = defineConfig.
Proof.
  unfold natives. repeat case_match; naive_solver.
Qed.

Lemma host_same_packages {P : Packages} (jobs1 jobs2 : World -> World) :
  same_packages (host jobs1) (host jobs2).
Proof. by split_and!. Qed.

Lemma world_blind_respects (f : native_fn) : world_blind f → native_respects any_world f.
Proof. intros Hf args w1 w2 _. split; [apply Hf | done]. Qed.

Lemma returns_argument_world_blind f : returns_argument f → world_blind f.
Proof. intros Hf args w1 w2. by rewrite !Hf. Qed.

Lemma returns_argument_ignores_file path f : returns_argument f → ignores_file path f.
Proof. intros Hf args w1 w2 Hw. by rewrite !Hf. Qed.

(** The sample packages meet every assumption made below. *)
Lemma integration_never_throws name : never_throws (integration name).
Proof. intros args w. by eexists _, _. Qed.

Lemma integration_world_blind name : world_blind (integration name).
Proof. by intros args w1 w2. Qed.

Lemma integration_ignores_file path name : ignores_file path (integration name).
Proof. by intros args w1 w2 Hw. Qed.

Lemma identity_helper_returns_argument : returns_argument identity_helper.
Proof. by intros args w. Qed.

Lemma agree_off_write_file (path content : string) (w : World) :
  agree_off path (write_file path content w) w.
Proof. split; [done|]. simpl. apply delete_insert_eq. Qed.

(** ** What the module is made of *)

Lemma astro_config_closed : module_closed astro_config = true.
Proof. reflexivity. Qed.

Lemma astro_config_awaits_nothing : module_awaits astro_config = false.
Proof. reflexivity. Qed.

Lemma astro_config_writes_nothing : written_names astro_config = [].
Proof. reflexivity. Qed.

(** Every specifier the module requests is a bare one: it imports packages
    and no file. *)
Lemma astro_config_requests_packages :
  Forall (fun spec => path_of_specifier spec = None) (requested_modules astro_config).
Proof. by repeat constructor. Qed.

Lemma astro_config_requests_no_file (spec p : string) :
  spec ∈ requested_modules astro_config → path_of_specifier spec ≠ Some p.
Proof.
  intros Hin Hp. pose proof astro_config_requests_packages as Hb.
  rewrite Forall_forall in Hb. specialize (Hb spec Hin). congruence.
Qed.

(** ** Evaluating the module, symbolically *)

Section Config.
Context {P : Packages}.
Variable jobs : World -> World.

(** Evaluation is three package calls in a row; every way it can end is one
    of the four below. *)
Lemma run_astro_config (w : World) :
  run (host jobs) astro_config w =
    match cloudflare [] w with
    | (Abrupt e, w1) => (Abrupt e, {| world := w1; trace := [call_cloudflare] |})
    | (Normal a, w1) =>
        match sitemap [] w1 with
        | (Abrupt e, w2) =>
            (Abrupt e, {| world := w2; trace := [call_cloudflare; call_sitemap] |})
        | (Normal s, w2) =>
            let cfg := config_object a s in
            let tr := [call_cloudflare; call_sitemap; call_defineConfig cfg] in
            match defineConfig [cfg] w2 with
            | (Abrupt e, w3) => (Abrupt e, {| world := w3; trace := tr |})
            | (Normal c, w3) =>
                (Normal {| scope := imports; exported := [("default", c)] |},
                 {| world := w3; trace := tr |})
            end
        end
    end.
Proof.
  destruct P as [cf sm dc]; vm_compute.
  destruct (cf [] w) as [[a|e] w1]; [|reflexivity].
  destruct (sm [] w1) as [[s|e] w2]; [|reflexivity].
  destruct (dc _ w2) as [[c|e] w3]; reflexivity.
Qed.

(** When both constructor calls return and [defineConfig] hands its argument
    back, the default export is the literal's value. *)
Lemma default_export_is_config_object (w w1 w2 : World) (a s : value) :
  cloudflare [] w = (Normal a, w1) →
  sitemap [] w1 = (Normal s, w2) →
  returns_argument defineConfig →
  run (host jobs) astro_config w =
    (Normal {| scope := imports; exported := [("default", config_object a s)] |},
     {| world := w2;
        trace := [call_cloudflare; call_sitemap;
                  call_defineConfig (config_object a s)] |}).
Proof.
  intros Ha Hs Hd. rewrite run_astro_config, Ha, Hs. cbv zeta. by rewrite Hd.
Qed.


(** The whole module changes the state exactly as its export expression
    does: no other statement has an effect. *)
Lemma state_effect_is_export_expression (w : World) :
  (run (host jobs) astro_config w).2 =
  (eval_expr (host jobs) (declared_names astro_config) imports
     (ECall (EIdent "defineConfig") [config_literal])
     {| world := w; trace := [] |}).2.
Proof.
  destruct P as [cf sm dc]; vm_compute.
  destruct (cf [] w) as [[a|e] w1]; [|reflexivity].
  destruct (sm [] w1) as [[s|e] w2]; [|reflexivity].
  destruct (dc _ w2) as [[c|e] w3]; reflexivity.
Qed.


Lemma field_config_object_other (a s : value) (k : string) :
  k ∉ ["site"; "adapter"; "integrations"] → field k (config_object a s) = VUndefined.
Proof.
  intros Hk. unfold field, config_object. simpl.
  destruct (String.eqb_spec k "site") as [->|_]; [set_solver|].
  destruct (String.eqb_spec k "adapter") as [->|_]; [set_solver|].
  destruct (String.eqb_spec k "integrations") as [->|_]; [set_solver|].
  done.
Qed.
End Config.

(** ** The declared configuration *)

Section Declared.
Context {P : Packages}.
Variable jobs : World -> World.

(** C1: the default-exported configuration declares the site origin: its
    [site] field is exactly the string "https://tedxuniversitasbrawijaya.com".
    The two constructors are assumed to return and [defineConfig] to hand
    back its argument. *)
Theorem default_export_site (w : World) :
  never_throws cloudflare →
  never_throws sitemap →
  returns_argument defineConfig →
  ∃ cfg,
    default_export (run (host jobs) astro_config w) = Some cfg
    ∧ field "site" cfg = VStr "https://tedxuniversitasbrawijaya.com".
Proof.
  intros Hc Hs Hd.
  destruct (Hc [] w) as (a & w1 & Ha).
  destruct (Hs [] w1) as (s & w2 & Hs').
  exists (config_object a s).
  by rewrite (default_export_is_config_object jobs w w1 w2 a s).
Qed.

(** C2: the default-exported configuration selects the deployment adapter:
    its [adapter] field is the value the call [cloudflare()] produced, a
    call made once, with no arguments, in the world the module started in. *)
Theorem default_export_adapter (w w1 : World) (a : value) :
  cloudflare [] w = (Normal a, w1) →
  never_throws sitemap →
  returns_argument defineConfig →
  ∃ cfg,
    default_export (run (host jobs) astro_config w) = Some cfg
    ∧ field "adapter" cfg = a
    ∧ calls_to astrojs_cloudflare "default" (events (run (host jobs) astro_config w)) = [[]].
Proof.
  intros Ha Hs Hd.
  destruct (Hs [] w1) as (s & w2 & Hs').
  exists (config_object a s).
  by rewrite (default_export_is_config_object jobs w w1 w2 a s).
Qed.

(** C3: the default-exported configuration lists the build-time plugins: its
    [integrations] field is an array of length one whose sole element is the
    value the call [sitemap()] produced, a call made with no arguments. *)
Theorem default_export_integrations (w w1 w2 : World) (a s : value) :
  cloudflare [] w = (Normal a, w1) →
  sitemap [] w1 = (Normal s, w2) →
  returns_argument defineConfig →
  ∃ cfg items,
    default_export (run (host jobs) astro_config w) = Some cfg
    ∧ field "integrations" cfg = VArr items
    ∧ items = [s]
    ∧ length items = 1
    ∧ calls_to astrojs_sitemap "default" (events (run (host jobs) astro_config w)) = [[]].
Proof.
  intros Ha Hs Hd.
  exists (config_object a s), [s].
  by rewrite (default_export_is_config_object jobs w w1 w2 a s).
Qed.

(** C9: the configuration object sets exactly the three options [site],
    [adapter] and [integrations].  Those are the keys the literal writes;
    the object handed to [defineConfig] and exported has them as its only
    own properties; every other option, [base] and [output] among them,
    reads as undefined. *)
Theorem config_sets_three_options (w : World) :
  never_throws cloudflare →
  never_throws sitemap →
  returns_argument defineConfig →
  literal_keys config_literal = ["site"; "adapter"; "integrations"]
  ∧ ∃ cfg,
      default_export (run (host jobs) astro_config w) = Some cfg
      ∧ calls_to astro_config_pkg "defineConfig"
          (events (run (host jobs) astro_config w)) = [[cfg]]
      ∧ own_keys cfg = ["site"; "adapter"; "integrations"]
      ∧ field "base" cfg = VUndefined
      ∧ field "output" cfg = VUndefined
      ∧ ∀ k, k ∉ ["site"; "adapter"; "integrations"] → field k cfg = VUndefined.
Proof.
  intros Hc Hs Hd. split; [done|].
  destruct (Hc [] w) as (a & w1 & Ha).
  destruct (Hs [] w1) as (s & w2 & Hs').
  exists (config_object a s).
  rewrite (default_export_is_config_object jobs w w1 w2 a s) by done.
  split_and!; [done..|]. apply field_config_object_other.
Qed.

(** C10: the module's interface is one binding, and each constructor is
    called once, during evaluation.  The module exports [default] and
    nothing else.  When the calls return, the run is the one that a single
    [cloudflare()], then a single [sitemap()], then [defineConfig] make: the
    namespace holds what [defineConfig] returned on the object built from
    the two results, the world is the one reached through those three
    calls in that order, and the trail shows each constructor called once,
    with no arguments. *)
Theorem single_export_and_eager_calls (w w1 w2 w3 : World) (a s c : value) :
  cloudflare [] w = (Normal a, w1) →
  sitemap [] w1 = (Normal s, w2) →
  defineConfig [config_object a s] w2 = (Normal c, w3) →
  exported_names astro_config = ["default"]
  ∧ run (host jobs) astro_config w =
      (Normal {| scope := imports; exported := [("default", c)] |},
       {| world := w3;
          trace := [call_cloudflare; call_sitemap;
                    call_defineConfig (config_object a s)] |})
  ∧ calls_to astrojs_cloudflare "default" (events (run (host jobs) astro_config w)) = [[]]
  ∧ calls_to astrojs_sitemap "default" (events (run (host jobs) astro_config w)) = [[]].
Proof.
  intros Hc Hs Hd. unfold events.
  rewrite run_astro_config, Hc, Hs. cbv zeta. by rewrite Hd.
Qed.

End Declared.

(** ** Determinism and noninterference *)

Section Static.
Context {P : Packages}.

Lemma natives_respect (W : World -> World -> Prop) (jobs : World -> World) :
  native_respects W cloudflare →
  native_respects W sitemap →
  native_respects W defineConfig →
  ∀ pkg export fn, native (host jobs) pkg export = Some fn → native_respects W fn.
Proof.
  intros Hc Hs Hd pkg export fn Hfn.
  by destruct (natives_inv pkg export fn Hfn) as [->|[->| ->]].
Qed.

(** C4: evaluation is deterministic.  Two evaluations of the module, in any
    two worlds (global object, environment variables, files) and under any
    two job queues, complete alike, export the same default value and make
    the same calls: the module names nothing but its own imports and requests
    packages only, no file.  The packages' functions are assumed not to read
    the world. *)
Theorem evaluation_deterministic (jobs1 jobs2 : World -> World) (w1 w2 : World) :
  world_blind cloudflare →
  world_blind sitemap →
  world_blind defineConfig →
  outcome (run (host jobs1) astro_config w1) = outcome (run (host jobs2) astro_config w2)
  ∧ default_export (run (host jobs1) astro_config w1)
    = default_export (run (host jobs2) astro_config w2)
  ∧ events (run (host jobs1) astro_config w1) = events (run (host jobs2) astro_config w2)
  ∧ module_closed astro_config = true
  ∧ Forall (fun spec => path_of_specifier spec = None) (requested_modules astro_config).
Proof.
  intros Hc Hs Hd.
  destruct (module_noninterference any_world (host jobs1) (host jobs2)
              (host_same_packages jobs1 jobs2)) with (m := astro_config) (w1 := w1) (w2 := w2)
    as (Hr & Ht & _).
  - apply natives_respect; by apply world_blind_respects.
  - by intros spec u1 u2 Hu.
  - left. apply astro_config_closed.
  - intros spec p Hin Hp. by destruct (astro_config_requests_no_file spec p).
  - left. apply astro_config_awaits_nothing.
  - left. apply astro_config_writes_nothing.
  - done.
  - split_and!; [done| |done|done|apply astro_config_requests_packages].
    unfold default_export. unfold outcome in Hr. by rewrite Hr.
Qed.

Variable jobs : World -> World.

(** Worlds that differ at most in the documentation file give the same
    default export. *)
Lemma default_export_agree_off (w1 w2 : World) :
  ignores_file visual_css_md cloudflare →
  ignores_file visual_css_md sitemap →
  ignores_file visual_css_md defineConfig →
  agree_off visual_css_md w1 w2 →
  default_export (run (host jobs) astro_config w1)
  = default_export (run (host jobs) astro_config w2).
Proof.
  intros Hc Hs Hd Hw.
  destruct (module_noninterference (agree_off visual_css_md) (host jobs) (host jobs)
              (host_same_packages jobs jobs)) with (m := astro_config) (w1 := w1) (w2 := w2)
    as (Hr & _ & _).
  - by apply natives_respect.
  - by intros spec u1 u2 Hu.
  - left. apply astro_config_closed.
  - intros spec p Hin Hp. by destruct (astro_config_requests_no_file spec p).
  - left. apply astro_config_awaits_nothing.
  - left. apply astro_config_writes_nothing.
  - done.
  - unfold default_export. unfold outcome in Hr. by rewrite Hr.
Qed.

(** C5: the documentation does not interfere with the configuration.  The
    module requests packages and no file, the documentation file least of
    all, and whatever the content of docs/visual-css.md, the default export
    is the same; the packages' functions are assumed not to touch that
    file. *)
Theorem documentation_noninterference (w : World) (content1 content2 : string) :
  ignores_file visual_css_md cloudflare →
  ignores_file visual_css_md sitemap →
  ignores_file visual_css_md defineConfig →
  default_export (run (host jobs) astro_config (write_file visual_css_md content1 w))
  = default_export (run (host jobs) astro_config (write_file visual_css_md content2 w))
  ∧ default_export (run (host jobs) astro_config (write_file visual_css_md content1 w))
    = default_export (run (host jobs) astro_config w)
  ∧ Forall (fun spec => path_of_specifier spec = None) (requested_modules astro_config).
Proof.
  intros Hc Hs Hd.
  pose proof (default_export_agree_off _ w Hc Hs Hd
                (agree_off_write_file visual_css_md content1 w)) as H1.
  pose proof (default_export_agree_off _ w Hc Hs Hd
                (agree_off_write_file visual_css_md content2 w)) as H2.
  split_and!; [congruence | done | apply astro_config_requests_packages].
Qed.

End Static.

(** ** Frame and sequencing *)

Section Frame.
Context {P : Packages}.
Variable jobs : World -> World.


(** C8: evaluation involves no concurrency.  The module has no [await], so
    its evaluation is never suspended, no job of the queue runs in between,
    and the run is the same whatever the queue holds; the module has no
    mutable variable to share. *)
Theorem evaluation_sequential (other_jobs : World -> World) (w : World) :
  module_awaits astro_config = false
  ∧ suspensions (events (run (host jobs) astro_config w)) = 0
  ∧ run (host jobs) astro_config w = run (host other_jobs) astro_config w
  ∧ mutable_names astro_config = [].
Proof.
  split_and!; [done| | |done].
  - apply await_free_never_suspends, astro_config_awaits_nothing.
  - apply await_free_ignores_jobs;
      [apply host_same_packages | apply astro_config_awaits_nothing].
Qed.
End Frame.

(** ** The theorems at work on the sample packages *)

Lemma default_export_site_witness :
  ∃ cfg,
    default_export (run (@host sample_packages id) astro_config sample_world) = Some cfg
    ∧ field "site" cfg = VStr "https://tedxuniversitasbrawijaya.com".
Proof.
  apply (@default_export_site sample_packages id sample_world).
  - apply integration_never_throws.
  - apply integration_never_throws.
  - apply identity_helper_returns_argument.
Defined.

Lemma default_export_adapter_witness :
  ∃ cfg,
    default_export (run (@host sample_packages id) astro_config sample_world) = Some cfg
    ∧ field "adapter" cfg = VObj [("name", VStr "@astrojs/cloudflare")]
    ∧ calls_to astrojs_cloudflare "default"
        (events (run (@host sample_packages id) astro_config sample_world)) = [[]].
Proof.
  apply (@default_export_adapter sample_packages id sample_world sample_world).
  - reflexivity.
  - apply integration_never_throws.
  - apply identity_helper_returns_argument.
Defined.

Lemma default_export_integrations_witness :
  ∃ cfg items,
    default_export (run (@host sample_packages id) astro_config sample_world) = Some cfg
    ∧ field "integrations" cfg = VArr items
    ∧ items = [VObj [("name", VStr "@astrojs/sitemap")]]
    ∧ length items = 1
    ∧ calls_to astrojs_sitemap "default"
        (events (run (@host sample_packages id) astro_config sample_world)) = [[]].
Proof.
  apply (@default_export_integrations sample_packages id
           sample_world sample_world sample_world
           (VObj [("name", VStr "@astrojs/cloudflare")])).
  - reflexivity.
  - reflexivity.
  - apply identity_helper_returns_argument.
Defined.

Lemma evaluation_deterministic_witness :
  outcome (run (@host sample_packages id) astro_config empty_world)
  = outcome (run (@host sample_packages (set_global "process" VNull)) astro_config sample_world)
  ∧ default_export (run (@host sample_packages id) astro_config empty_world)
    = default_export
        (run (@host sample_packages (set_global "process" VNull)) astro_config sample_world)
  ∧ events (run (@host sample_packages id) astro_config empty_world)
    = events (run (@host sample_packages (set_global "process" VNull)) astro_config sample_world)
  ∧ module_closed astro_config = true
  ∧ Forall (fun spec => path_of_specifier spec = None) (requested_modules astro_config).
Proof.
  apply (@evaluation_deterministic sample_packages).
  - apply integration_world_blind.
  - apply integration_world_blind.
  - apply returns_argument_world_blind, identity_helper_returns_argument.
Defined.

Lemma documentation_noninterference_witness :
  default_export (run (@host sample_packages id) astro_config
    (write_file visual_css_md "# Visual CSS Best Practices" empty_world))
  = default_export (run (@host sample_packages id) astro_config
      (write_file visual_css_md "" empty_world))
  ∧ default_export (run (@host sample_packages id) astro_config
      (write_file visual_css_md "# Visual CSS Best Practices" empty_world))
    = default_export (run (@host sample_packages id) astro_config empty_world)
  ∧ Forall (fun spec => path_of_specifier spec = None) (requested_modules astro_config).
Proof.
  apply (@documentation_noninterference sample_packages).
  - apply integration_ignores_file.
  - apply integration_ignores_file.
  - apply returns_argument_ignores_file, identity_helper_returns_argument.
Defined.



Lemma config_sets_three_options_witness :
  literal_keys config_literal = ["site"; "adapter"; "integrations"]
  ∧ ∃ cfg,
      default_export (run (@host sample_packages id) astro_config sample_world) = Some cfg
      ∧ calls_to astro_config_pkg "defineConfig"
          (events (run (@host sample_packages id) astro_config sample_world)) = [[cfg]]
      ∧ own_keys cfg = ["site"; "adapter"; "integrations"]
      ∧ field "base" cfg = VUndefined
      ∧ field "output" cfg = VUndefined
      ∧ ∀ k, k ∉ ["site"; "adapter"; "integrations"] → field k cfg = VUndefined.
Proof.
  apply (@config_sets_three_options sample_packages id sample_world).
  - apply integration_never_throws.
  - apply integration_never_throws.
  - apply identity_helper_returns_argument.
Defined.

Lemma single_export_and_eager_calls_witness :
  exported_names astro_config = ["default"]
  ∧ run (@host recording_packages id) astro_config empty_world =
      (Normal
         {| scope := imports;
            exported :=
              [("default",
                config_object (VObj [("name", VStr "@astrojs/cloudflare")])
                  (VObj [("name", VStr "@astrojs/sitemap")]))] |},
       {| world :=
            set_global "@astrojs/sitemap" (VArr [VArr []])
              (set_global "@astrojs/cloudflare" (VArr [VArr []]) empty_world);
          trace :=
            [call_cloudflare; call_sitemap;
             call_defineConfig
               (config_object (VObj [("name", VStr "@astrojs/cloudflare")])
                  (VObj [("name", VStr "@astrojs/sitemap")]))] |})
  ∧ calls_to astrojs_cloudflare "default"
      (events (run (@host recording_packages id) astro_config empty_world)) = [[]]
  ∧ calls_to astrojs_sitemap "default"
      (events (run (@host recording_packages id) astro_config empty_world)) = [[]].
Proof.
  apply (@single_export_and_eager_calls recording_packages id
           empty_world
           (set_global "@astrojs/cloudflare" (VArr [VArr []]) empty_world)
           (set_global "@astrojs/sitemap" (VArr [VArr []])
              (set_global "@astrojs/cloudflare" (VArr [VArr []]) empty_world))
           (set_global "@astrojs/sitemap" (VArr [VArr []])
              (set_global "@astrojs/cloudflare" (VArr [VArr []]) empty_world))
           (VObj [("name", VStr "@astrojs/cloudflare")])
           (VObj [("name", VStr "@astrojs/sitemap")])).
  - reflexivity.
  - reflexivity.
  - reflexivity.
Defined.

(** ** Where the specification says more than the code does *)



(** ** Modules that behave otherwise *)

(** The configuration evaluated on the sample packages. *)
Example astro_config_on_sample_packages :
  default_export (run (@host sample_packages id) astro_config sample_world)
  = Some (VObj [ ("site", VStr "https://tedxuniversitasbrawijaya.com");
                 ("adapter", VObj [("name", VStr "@astrojs/cloudflare")]);
                 ("integrations", VArr [VObj [("name", VStr "@astrojs/sitemap")]]) ]).
Proof. reflexivity. Qed.

(** When the adapter constructor throws, evaluation ends there: nothing is
    exported and [sitemap] is never called. *)
Example astro_config_on_failing_packages :
  outcome (run (@host failing_packages id) astro_config sample_world)
  = Abrupt (Thrown (VStr "unsupported platform"))
  ∧ calls_to astrojs_sitemap "default"
      (events (run (@host failing_packages id) astro_config sample_world)) = [].
Proof. by split. Qed.

(** A module that reads the environment is not deterministic across worlds. *)
Example reads_environment_depends_on_world :
  default_export (run (@host sample_packages id) reads_environment sample_world)
  = Some (VStr "production")
  ∧ outcome (run (@host sample_packages id) reads_environment empty_world)
    = Abrupt (ReferenceError "process").
Proof. by split. Qed.

(** A module that imports the documentation exports what the file holds. *)
Example imports_documentation_depends_on_file :
  default_export (run (@host sample_packages id) imports_documentation sample_world)
  = Some (VStr "# Visual CSS Best Practices")
  ∧ default_export (run (@host sample_packages id) imports_documentation
      (write_file visual_css_md "rewritten" sample_world))
    = Some (VStr "rewritten").
Proof. by split. Qed.

(** A module that awaits is suspended once, and the jobs that run meanwhile
    show in the world it leaves. *)
Example awaits_something_is_suspended :
  suspensions (events (run (@host sample_packages id) awaits_something sample_world)) = 1
  ∧ globals (final_world
      (run (@host sample_packages (set_global "ran" (VBool true))) awaits_something
         sample_world)) !! "ran" = Some (VBool true)
  ∧ globals (final_world
      (run (@host sample_packages id) awaits_something sample_world)) !! "ran" = None.
Proof. by split_and!. Qed.

(** A module that assigns to the global object changes the world. *)
Example writes_global_changes_world :
  globals (final_world (run (@host sample_packages id) writes_global empty_world))
    !! "deployed" = Some (VBool true).
Proof. reflexivity. Qed.

(** * Further properties of the configuration module *)

(** ** Failure *)

Section Failure.
Context {P : Packages}.
Variable jobs : World -> World.

(** The module fails exactly when one of its three calls throws, and with
    the error thrown: it catches nothing, wraps nothing and raises nothing
    of its own. *)
Theorem failure_characterisation (w : World) (e : error) :
  outcome (run (host jobs) astro_config w) = Abrupt e
  ↔ (cloudflare [] w).1 = Abrupt e
    ∨ ∃ a w1, cloudflare [] w = (Normal a, w1)
        ∧ ((sitemap [] w1).1 = Abrupt e
           ∨ ∃ s w2, sitemap [] w1 = (Normal s, w2)
               ∧ (defineConfig [config_object a s] w2).1 = Abrupt e).
Proof.
  unfold outcome. rewrite run_astro_config.
  destruct (cloudflare [] w) as [[a|e1] w1] eqn:Hc; simpl.
  - destruct (sitemap [] w1) as [[s|e2] w2] eqn:Hs; simpl.
    + destruct (defineConfig [config_object a s] w2) as [[c|e3] w3] eqn:Hd; simpl.
      * split; [done|].
        intros [?|(a' & w1' & [= <- <-] & [He|(s' & w2' & Hs' & He)])]; [done| |].
        -- by rewrite Hs in He.
        -- rewrite Hs in Hs'. injection Hs' as <- <-. by rewrite Hd in He.
      * split.
        -- intros [= <-]. right. eexists _, _. split; [done|]. right.
           eexists _, _. split; [done|]. by rewrite Hd.
        -- intros [?|(a' & w1' & [= <- <-] & [He|(s' & w2' & Hs' & He)])]; [done| |].
           ++ by rewrite Hs in He.
           ++ rewrite Hs in Hs'. injection Hs' as <- <-.
              rewrite Hd in He. simpl in He. by injection He as ->.
    + split.
      * intros [= <-]. right. eexists _, _. split; [done|]. left. by rewrite Hs.
      * intros [?|(a' & w1' & [= <- <-] & [He|(s' & w2' & Hs' & _)])]; [done| |].
        -- rewrite Hs in He. simpl in He. by injection He as ->.
        -- by rewrite Hs in Hs'.
  - split.
    + intros [= <-]. by left.
    + intros [He|(a' & w1' & ? & _)]; [|done]. by injection He as ->.
Qed.

(** When the adapter constructor throws, evaluation stops there: [sitemap]
    and [defineConfig] are never called, nothing is exported, and the world
    is the one the constructor left. *)
Theorem adapter_failure_stops_evaluation (w w1 : World) (e : error) :
  cloudflare [] w = (Abrupt e, w1) →
  outcome (run (host jobs) astro_config w) = Abrupt e
  ∧ default_export (run (host jobs) astro_config w) = None
  ∧ calls_to astrojs_sitemap "default" (events (run (host jobs) astro_config w)) = []
  ∧ calls_to astro_config_pkg "defineConfig" (events (run (host jobs) astro_config w)) = []
  ∧ final_world (run (host jobs) astro_config w) = w1.
Proof.
  intros Hc. unfold outcome, default_export, events, final_world.
  by rewrite run_astro_config, Hc.
Qed.

(** When the sitemap constructor throws, the adapter has been constructed
    once and is lost: [defineConfig] is never called and nothing is
    exported. *)
Theorem plugin_failure_stops_evaluation (w w1 w2 : World) (a : value) (e : error) :
  cloudflare [] w = (Normal a, w1) →
  sitemap [] w1 = (Abrupt e, w2) →
  outcome (run (host jobs) astro_config w) = Abrupt e
  ∧ default_export (run (host jobs) astro_config w) = None
  ∧ calls_to astrojs_cloudflare "default" (events (run (host jobs) astro_config w)) = [[]]
  ∧ calls_to astro_config_pkg "defineConfig" (events (run (host jobs) astro_config w)) = []
  ∧ final_world (run (host jobs) astro_config w) = w2.
Proof.
  intros Hc Hs. unfold outcome, default_export, events, final_world.
  by rewrite run_astro_config, Hc, Hs.
Qed.
End Failure.

(** ** What the framework is handed *)

Section Handover.
Context {P : Packages}.
Variable jobs : World -> World.

(** Whatever [defineConfig] does, it is called once, with one argument: the
    object whose [site] is the origin, whose [adapter] is what [cloudflare()]
    returned and whose [integrations] holds what [sitemap()] returned.  The
    module exports what [defineConfig] returns, as returned, and leaves the
    world [defineConfig] left. *)
Theorem framework_receives_config (w w1 w2 w3 : World) (a s : value)
    (r : completion value) :
  cloudflare [] w = (Normal a, w1) →
  sitemap [] w1 = (Normal s, w2) →
  defineConfig [config_object a s] w2 = (r, w3) →
  calls_to astro_config_pkg "defineConfig" (events (run (host jobs) astro_config w))
  = [[VObj [ ("site", VStr "https://tedxuniversitasbrawijaya.com");
             ("adapter", a);
             ("integrations", VArr [s]) ]]]
  ∧ default_export (run (host jobs) astro_config w)
    = match r with Normal c => Some c | Abrupt _ => None end
  ∧ final_world (run (host jobs) astro_config w) = w3.
Proof.
  intros Hc Hs Hd. unfold default_export, events, final_world.
  rewrite run_astro_config, Hc, Hs. cbv zeta. rewrite Hd. by destruct r.
Qed.

End Handover.

Lemma adapter_failure_stops_evaluation_witness :
  outcome (run (@host failing_packages id) astro_config sample_world)
  = Abrupt (Thrown (VStr "unsupported platform"))
  ∧ default_export (run (@host failing_packages id) astro_config sample_world) = None
  ∧ calls_to astrojs_sitemap "default"
      (events (run (@host failing_packages id) astro_config sample_world)) = []
  ∧ calls_to astro_config_pkg "defineConfig"
      (events (run (@host failing_packages id) astro_config sample_world)) = []
  ∧ final_world (run (@host failing_packages id) astro_config sample_world) = sample_world.
Proof.
  apply (@adapter_failure_stops_evaluation failing_packages id sample_world sample_world).
  reflexivity.
Defined.

Lemma plugin_failure_stops_evaluation_witness :
  outcome (run (@host plugin_failing_packages id) astro_config sample_world)
  = Abrupt (Thrown (VStr "unsupported platform"))
  ∧ default_export (run (@host plugin_failing_packages id) astro_config sample_world) = None
  ∧ calls_to astrojs_cloudflare "default"
      (events (run (@host plugin_failing_packages id) astro_config sample_world)) = [[]]
  ∧ calls_to astro_config_pkg "defineConfig"
      (events (run (@host plugin_failing_packages id) astro_config sample_world)) = []
  ∧ final_world (run (@host plugin_failing_packages id) astro_config sample_world)
    = sample_world.
Proof.
  apply (@plugin_failure_stops_evaluation plugin_failing_packages id
           sample_world sample_world sample_world
           (VObj [("name", VStr "@astrojs/cloudflare")])).
  - reflexivity.
  - reflexivity.
Defined.

Lemma framework_receives_config_witness :
  calls_to astro_config_pkg "defineConfig"
    (events (run (@host wrapping_packages id) astro_config empty_world))
  = [[VObj [ ("site", VStr "https://tedxuniversitasbrawijaya.com");
             ("adapter", VObj [("name", VStr "@astrojs/cloudflare")]);
             ("integrations", VArr [VObj [("name", VStr "@astrojs/sitemap")]]) ]]]
  ∧ default_export (run (@host wrapping_packages id) astro_config empty_world)
    = Some (VObj [ ("site", VStr "https://tedxuniversitasbrawijaya.com");
                   ("adapter", VObj [("name", VStr "@astrojs/cloudflare")]);
                   ("integrations", VArr [VObj [("name", VStr "@astrojs/sitemap")]]);
                   ("validated", VBool true) ])
  ∧ final_world (run (@host wrapping_packages id) astro_config empty_world)
    = set_global "configured" (VBool true) empty_world.
Proof.
  apply (@framework_receives_config wrapping_packages id
           empty_world empty_world empty_world
           (set_global "configured" (VBool true) empty_world)
           (VObj [("name", VStr "@astrojs/cloudflare")])
           (VObj [("name", VStr "@astrojs/sitemap")])
           (Normal (VObj [ ("site", VStr "https://tedxuniversitasbrawijaya.com");
                           ("adapter", VObj [("name", VStr "@astrojs/cloudflare")]);
                           ("integrations", VArr [VObj [("name", VStr "@astrojs/sitemap")]]);
                           ("validated", VBool true) ]))).
  - reflexivity.
  - reflexivity.
  - reflexivity.
Defined.

(** * The responsive image width *)

(** The three regimes of the declaration: the floor up to a viewport of
    800px, three tenths of the viewport up to 5200/3 px, the ceiling
    beyond. *)
Lemma image_width_cases (v : Q) :
  ((v <= 800 ∧ image_width v == 240)
   ∨ (800 <= v ∧ v <= 5200 # 3 ∧ image_width v == (3 # 10) * v)
   ∨ (5200 # 3 <= v ∧ image_width v == 520))%Q.
Proof.
  unfold image_width, css_clamp, vw.
  assert (30 * (v / 100) == (3 # 10) * v)%Q as Hv by field.
  destruct (Q.min_spec (30 * (v / 100)) 520) as [[H1 E1]|[H1 E1]];
    destruct (Q.max_spec 240 (Qmin (30 * (v / 100)) 520)) as [[H2 E2]|[H2 E2]].
  - right; left. split_and!; lra.
  - left. split; lra.
  - right; right. split; lra.
  - lra.
Qed.

(** In every viewport the image is at least 240px and at most 520px wide; it
    sits on the floor exactly in viewports up to 800px, and on the ceiling
    exactly in viewports from 5200/3 px (1733.33...) on. *)
Theorem image_width_bounded (v : Q) :
  (240 <= image_width v ∧ image_width v <= 520
   ∧ (image_width v == 240 ↔ v <= 800)
   ∧ (image_width v == 520 ↔ 5200 # 3 <= v))%Q.
Proof.
  destruct (image_width_cases v) as [[H E]|[(H1 & H2 & E)|[H E]]];
    split_and!; try split; intros; lra.
Qed.

(** Between the two, the image is 30vw wide: three tenths of the
    viewport. *)
Theorem image_width_scales (v : Q) :
  (800 <= v → v <= 5200 # 3 →
   image_width v == 30 * vw v ∧ image_width v == (3 # 10) * v)%Q.
Proof.
  intros Hlo Hhi. unfold vw.
  assert (30 * (v / 100) == (3 # 10) * v)%Q as Hv by field.
  destruct (image_width_cases v) as [[H E]|[(H1 & H2 & E)|[H E]]]; split; lra.
Qed.

(** Scaling is smooth: a wider viewport never gives a narrower image, and
    the image grows by at most three tenths of what the viewport grows, so
    there is no jump at any width. *)
Theorem image_width_smooth (v1 v2 : Q) :
  (v1 <= v2 →
   image_width v1 <= image_width v2
   ∧ image_width v2 - image_width v1 <= (3 # 10) * (v2 - v1))%Q.
Proof.
  intros Hle.
  destruct (image_width_cases v1) as [[H E]|[(H1 & H2 & E)|[H E]]];
    destruct (image_width_cases v2) as [[H' E']|[(H1' & H2' & E')|[H' E']]];
    split; lra.
Qed.

Lemma image_width_scales_witness :
  (image_width 1280 == 30 * vw 1280 ∧ image_width 1280 == (3 # 10) * 1280)%Q.
Proof.
  apply (image_width_scales 1280).
  - vm_compute. discriminate.
  - vm_compute. discriminate.
Defined.

Lemma image_width_smooth_witness :
  (image_width 320 <= image_width 1280
   ∧ image_width 1280 - image_width 320 <= (3 # 10) * (1280 - 320))%Q.
Proof.
  apply (image_width_smooth 320 1280).
  vm_compute. discriminate.
Defined.

(** A phone, a laptop and a wide desktop. *)
Example image_width_samples :
  (image_width 390 == 240 ∧ image_width 1280 == 384 ∧ image_width 2560 == 520)%Q.
Proof. by vm_compute. Qed.
